(** * Verification of the asynchronous XML event writer of quick-xml

    Shallow embedding of [src/writer/async_tokio.rs]: [Writer::write_event_async],
    [write_indent_async], [write_async] and [write_wrapped_async].  The writer is
    a record holding the sink and the optional [Indentation] tracker; every
    method is a computation in a small state/error monad over that record. *)

From Stdlib Require Import List String Strings.Byte ZArith Bool Lia.
Import ListNotations.

Definition bytes := list byte.

(** Byte-string literal [b"..."]. *)
Definition lit (s : string) : bytes := list_byte_of_string s.

Definition newline : byte := x0a.

(** ** Sink: a [tokio::io::AsyncWrite] used through [write_all]

    Each [write_all] call on a non-empty slice consumes one outcome of the
    sink's script: [Accept] takes the whole slice, [Reject k e] takes the first
    [k] bytes and then fails with the I/O error [e].  A [Vec<u8>] sink is the
    sink whose script is empty (every write is accepted).  Tokio's [write_all]
    on an empty slice returns [Ok(())] without polling the sink. *)

Inductive io_error := IoError (code : nat).

Inductive outcome := Accept | Reject (written : nat) (err : io_error).

Record Sink := mkSink { buffer : bytes; script : list outcome }.

Definition vec_sink (b : bytes) : Sink := mkSink b [].

Definition write_all (s : Sink) (v : bytes) : Sink * option io_error :=
  match v with
  | [] => (s, None)
  | _ =>
      match script s with
      | [] => (mkSink (buffer s ++ v) [], None)
      | Accept :: rest => (mkSink (buffer s ++ v) rest, None)
      | Reject k e :: rest => (mkSink (buffer s ++ firstn k v) rest, Some e)
      end
  end.

(** ** Errors: [crate::errors::Error], of which only [Error::Io] is produced here *)

Inductive Error := Io (e : io_error).

Inductive Result (A : Type) := Ok (a : A) | Err (e : Error).
Arguments Ok {A} a.
Arguments Err {A} e.

(** ** The indentation tracker *)

(** Modelled from the spec: [Indentation] with [new], [grow], [shrink] and
    [current] (defined in src/writer.rs, not part of src/).  [depth] is the
    nesting level, an unsigned integer that never goes negative (§3); one
    level is [indent_size] copies of [indent_char]; [grow] adds one level and
    [shrink] removes one, staying at zero when there is none to remove (a
    call at depth zero is outside the caller's contract, §4.4, §7);
    [current] is the unit repeated [depth] times (§4.4); a fresh tracker does
    not break the line before the first event (§8). *)
Record Indentation := mkIndentation {
  should_line_break : bool;
  indent_char : byte;
  indent_size : nat;
  depth : nat
}.

Definition Indentation_new (indent_char : byte) (indent_size : nat) : Indentation :=
  mkIndentation false indent_char indent_size 0.

Definition indent_unit (i : Indentation) : bytes := repeat (indent_char i) (indent_size i).

Definition grow (i : Indentation) : Indentation :=
  mkIndentation (should_line_break i) (indent_char i) (indent_size i) (depth i + 1).

Definition shrink (i : Indentation) : Indentation :=
  mkIndentation (should_line_break i) (indent_char i) (indent_size i) (depth i - 1).

Definition current (i : Indentation) : bytes :=
  List.concat (repeat (indent_unit i) (depth i)).

Definition set_should_line_break (b : bool) (i : Indentation) : Indentation :=
  mkIndentation b (indent_char i) (indent_size i) (depth i).

(** ** The writer: [struct Writer<W> { writer: W, indent: Option<Indentation> }] *)

Record Writer := mkWriter { writer : Sink; indent : option Indentation }.

(** Modelled from the spec: [Writer::new] and [Writer::new_with_indent]
    (src/writer.rs, not part of src/): compact mode has no tracker, pretty
    mode a fresh one. *)
Definition Writer_new (s : Sink) : Writer := mkWriter s None.

Definition Writer_new_with_indent (s : Sink) (indent_char : byte) (indent_size : nat) : Writer :=
  mkWriter s (Some (Indentation_new indent_char indent_size)).

(** ** Events: [crate::events::Event]; each payload is the byte content the
    event dereferences to (name and attributes for [BytesStart], the escaped
    text for [BytesText], ...). *)

Inductive Event :=
| Start (e : bytes)
| End (e : bytes)
| Empty (e : bytes)
| Text (e : bytes)
| Comment (e : bytes)
| CData (e : bytes)
| Decl (e : bytes)
| PI (e : bytes)
| DocType (e : bytes)
| Eof.

(** ** A state/error monad over the writer: [async fn (&mut self) -> Result<A>]

    [Err] in the monad is the early return of [?]; [catch] turns the result
    of an awaited call into a value, as [let result = ... .await] does. *)

Definition M (A : Type) := Writer -> Writer * Result A.

Definition ret {A} (a : A) : M A := fun w => (w, Ok a).

Definition bind {A B} (m : M A) (k : A -> M B) : M B :=
  fun w => match m w with
           | (w', Ok a) => k a w'
           | (w', Err e) => (w', Err e)
           end.

Notation "x <- c1 ;; c2" := (bind c1 (fun x => c2))
  (at level 61, c1 at next level, right associativity).
Notation "' pat <- c1 ;; c2" := (bind c1 (fun x => match x with pat => c2 end))
  (at level 61, pat pattern, c1 at next level, right associativity).
Notation "c1 ;; c2" := (bind c1 (fun _ => c2)) (at level 61, right associativity).

Definition catch {A} (m : M A) : M (Result A) :=
  fun w => let (w', r) := m w in (w', Ok r).

Definition lift_result {A} (r : Result A) : M A := fun w => (w, r).

Definition get_indent : M (option Indentation) := fun w => (w, Ok (indent w)).

(** [if let Some(i) = self.indent.as_mut() { f(i) }] *)
Definition update_indent (f : Indentation -> Indentation) : M unit :=
  fun w => (mkWriter (writer w) (option_map f (indent w)), Ok tt).

(** [self.writer.write_all(v).await], its [io::Error] converted into [Error::Io]
    (by [?] or by [map_err(Into::into)]). *)
Definition sink_write_all (v : bytes) : M unit :=
  fun w => let (s', r) := write_all (writer w) v in
           (mkWriter s' (indent w),
            match r with None => Ok tt | Some e => Err (Io e) end).

(** ** The methods of [impl<W: AsyncWrite + Unpin> Writer<W>] *)

Definition write_async (value : bytes) : M unit := sink_write_all value.

Definition write_wrapped_async (before value after : bytes) : M unit :=
  i <- get_indent ;;
  (match i with
   | Some i =>
       if should_line_break i then
         sink_write_all [newline] ;;
         sink_write_all (current i)
       else ret tt
   | None => ret tt
   end) ;;
  write_async before ;;
  write_async value ;;
  write_async after ;;
  ret tt.

Definition write_indent_async : M unit :=
  i <- get_indent ;;
  match i with
  | Some i =>
      sink_write_all [newline] ;;
      sink_write_all (current i) ;;
      ret tt
  | None => ret tt
  end.

Definition write_event_async (event : Event) : M unit :=
  '(next_should_line_break, result) <-
    (match event with
     | Start e =>
         result <- catch (write_wrapped_async (lit "<") e (lit ">")) ;;
         update_indent grow ;;
         ret (true, result)
     | End e =>
         update_indent shrink ;;
         result <- catch (write_wrapped_async (lit "</") e (lit ">")) ;;
         ret (true, result)
     | Empty e =>
         result <- catch (write_wrapped_async (lit "<") e (lit "/>")) ;;
         ret (true, result)
     | Text e =>
         result <- catch (write_async e) ;;
         ret (false, result)
     | Comment e =>
         result <- catch (write_wrapped_async (lit "<!--") e (lit "-->")) ;;
         ret (true, result)
     | CData e =>
         write_async (lit "<![CDATA[") ;;
         write_async e ;;
         result <- catch (write_async (lit "]]>")) ;;
         ret (false, result)
     | Decl e =>
         result <- catch (write_wrapped_async (lit "<?") e (lit "?>")) ;;
         ret (true, result)
     | PI e =>
         result <- catch (write_wrapped_async (lit "<?") e (lit "?>")) ;;
         ret (true, result)
     | DocType e =>
         result <- catch (write_wrapped_async (lit "<!DOCTYPE ") e (lit ">")) ;;
         ret (true, result)
     | Eof => ret (true, Ok tt)
     end) ;;
  update_indent (set_should_line_break next_should_line_break) ;;
  lift_result result.

(** A caller feeding a sequence of events, one [write_event_async] call each,
    continuing after a failed call (the writer is not poisoned). *)
Fixpoint write_events (events : list Event) (w : Writer) : Writer * list (Result unit) :=
  match events with
  | [] => (w, [])
  | ev :: rest =>
      let (w1, r) := write_event_async ev w in
      let (w2, rs) := write_events rest w1 in
      (w2, r :: rs)
  end.

(** Indentation configuration of a writer: [None] for [Writer::new],
    [Some (c, n)] for [Writer::new_with_indent(_, c, n)]. *)
Definition config := option (byte * nat).

Definition writer_of_config (cfg : config) (s : Sink) : Writer :=
  match cfg with
  | None => Writer_new s
  | Some (c, n) => Writer_new_with_indent s c n
  end.

(** ** Derived views of the code, used by the proofs *)

(** A sequence of [write_all] calls on the sink, stopping at the first
    error, which is returned with the position of the failing call. *)
Fixpoint sink_seq (chunks : list bytes) (s : Sink) : Sink * option (nat * io_error) :=
  match chunks with
  | [] => (s, None)
  | v :: rest =>
      let (s1, r) := write_all s v in
      match r with
      | None =>
          let (s2, r2) := sink_seq rest s1 in
          (s2, option_map (fun p => (S (fst p), snd p)) r2)
      | Some e => (s1, Some (0, e))
      end
  end.

Definition to_result (r : option (nat * io_error)) : Result unit :=
  match r with None => Ok tt | Some (_, e) => Err (Io e) end.

(** The newline and indentation [write_wrapped_async] writes first. *)
Definition line_break (o : option Indentation) : list bytes :=
  match o with
  | Some i => if should_line_break i then [[newline]; current i] else []
  | None => []
  end.

(** The tracker as the event's bytes are written: shrunk first for [End]. *)
Definition pre_indent (ev : Event) (o : option Indentation) : option Indentation :=
  match ev with
  | End _ => option_map shrink o
  | _ => o
  end.

(** The [write_all] calls each arm of [write_event_async] makes. *)
Definition event_chunks (ev : Event) (o : option Indentation) : list bytes :=
  match ev with
  | Start e => line_break o ++ [lit "<"; e; lit ">"]
  | End e => line_break o ++ [lit "</"; e; lit ">"]
  | Empty e => line_break o ++ [lit "<"; e; lit "/>"]
  | Text e => [e]
  | Comment e => line_break o ++ [lit "<!--"; e; lit "-->"]
  | CData e => [lit "<![CDATA["; e; lit "]]>"]
  | Decl e => line_break o ++ [lit "<?"; e; lit "?>"]
  | PI e => line_break o ++ [lit "<?"; e; lit "?>"]
  | DocType e => line_break o ++ [lit "<!DOCTYPE "; e; lit ">"]
  | Eof => []
  end.

Definition next_flag (ev : Event) : bool :=
  match ev with
  | Text _ | CData _ => false
  | _ => true
  end.

(** Whether the call returned early through a [?]: in the [CData] arm, a
    failure of one of its first two writes. *)
Definition early_return (ev : Event) (r : option (nat * io_error)) : bool :=
  match ev, r with
  | CData _, Some (k, _) => Nat.ltb k 2
  | _, _ => false
  end.

(** The tracker after the call: [grow] for [Start], then the flag unless
    the call returned early. *)
Definition post_indent (ev : Event) (early : bool) (o : option Indentation) : option Indentation :=
  let o1 := match ev with Start _ => option_map grow o | _ => o end in
  if early then o1 else option_map (set_should_line_break (next_flag ev)) o1.

Definition prefix (p l : bytes) : Prop := exists q, l = p ++ q.

(** ** The spec's side *)

(** §4.1, column "Emitted bytes" of the dispatch table. *)
Definition spec_table_bytes (ev : Event) : bytes :=
  match ev with
  | Start e => lit "<" ++ e ++ lit ">"
  | End e => lit "</" ++ e ++ lit ">"
  | Empty e => lit "<" ++ e ++ lit "/>"
  | Text e => e
  | Comment e => lit "<!--" ++ e ++ lit "-->"
  | CData e => lit "<![CDATA[" ++ e ++ lit "]]>"
  | Decl e => lit "<?" ++ e ++ lit "?>"
  | PI e => lit "<?" ++ e ++ lit "?>"
  | DocType e => lit "<!DOCTYPE " ++ e ++ lit ">"
  | Eof => []
  end.

(** §4.1, column "Indent before?". *)
Definition spec_indent_before (ev : Event) : bool :=
  match ev with
  | Start _ | End _ | Empty _ | Comment _ | Decl _ | PI _ | DocType _ => true
  | Text _ | CData _ | Eof => false
  end.

(** §4.1, the post-condition on [should_line_break]. *)
Definition spec_sets_line_break (ev : Event) : bool :=
  match ev with
  | Text _ | CData _ => false
  | _ => true
  end.

(** §4.2: a single newline and the unit repeated [depth] times, when a
    tracker is present and its flag is set. *)
Definition spec_line_break (o : option Indentation) : bytes :=
  match o with
  | Some i =>
      if should_line_break i
      then newline :: List.concat (repeat (indent_unit i) (depth i))
      else []
  | None => []
  end.

(** §4.1, column "Updates depth". *)
Definition depth_delta (ev : Event) : Z :=
  match ev with
  | Start _ => 1
  | End _ => -1
  | _ => 0
  end.

(** Modelled from the spec: the blocking [Writer::write_event] (src/writer.rs,
    not part of src/), writing into a [Vec<u8>], as the dispatch table of
    §4.1 and the pre-write indentation of §4.2 describe it: depth [-1] before
    an [End] is written, [+1] after a [Start] is written, and the flag set
    after every event. *)
Record BlockingWriter := mkBlocking { out : bytes; tracker : option Indentation }.

Definition blocking_write_event (ev : Event) (w : BlockingWriter) : BlockingWriter :=
  let t0 := match ev with End _ => option_map shrink (tracker w) | _ => tracker w end in
  let pre := if spec_indent_before ev then spec_line_break t0 else [] in
  let t1 := match ev with Start _ => option_map grow t0 | _ => t0 end in
  mkBlocking (out w ++ pre ++ spec_table_bytes ev)
             (option_map (set_should_line_break (spec_sets_line_break ev)) t1).

Fixpoint blocking_write_events (events : list Event) (w : BlockingWriter) : BlockingWriter :=
  match events with
  | [] => w
  | ev :: rest => blocking_write_events rest (blocking_write_event ev w)
  end.

Definition blocking_of_config (cfg : config) (b : bytes) : BlockingWriter :=
  match cfg with
  | None => mkBlocking b None
  | Some (c, n) => mkBlocking b (Some (Indentation_new c n))
  end.

(** Net nesting of a sequence: starts minus ends. *)
Fixpoint balance (events : list Event) : Z :=
  match events with
  | [] => 0
  | ev :: rest => depth_delta ev + balance rest
  end.

(** The caller's nesting contract: no [End] closes more elements than the
    [Start]s before it opened (name matching is not needed here). *)
Fixpoint nesting_ok_from (d : Z) (events : list Event) : bool :=
  match events with
  | [] => true
  | Start _ :: rest => nesting_ok_from (d + 1) rest
  | End _ :: rest => (0 <? d)%Z && nesting_ok_from (d - 1) rest
  | _ :: rest => nesting_ok_from d rest
  end.

Definition nesting_ok (events : list Event) : bool := nesting_ok_from 0 events.

(** The tracker's depth after one event, and after a sequence of events, as
    [write_event_async] changes it ([grow] on [Start], [shrink] on [End]). *)
Definition step_depth (d : nat) (ev : Event) : nat :=
  match ev with
  | Start _ => d + 1
  | End _ => d - 1
  | _ => d
  end.

Definition depth_after (d : nat) (events : list Event) : nat := fold_left step_depth events d.

Fixpoint last_event (events : list Event) : option Event :=
  match events with
  | [] => None
  | [ev] => Some ev
  | _ :: rest => last_event rest
  end.

(** Whether the next event follows a markup event: there is a previous
    event, and it is neither [Text] nor [CData]. *)
Definition follows_markup (events : list Event) : bool :=
  match last_event events with
  | None => false
  | Some (Text _) | Some (CData _) => false
  | Some _ => true
  end.

(** The payload bytes an event carries. *)
Definition payload (ev : Event) : bytes :=
  match ev with
  | Start e | End e | Empty e | Text e | Comment e | CData e | Decl e | PI e | DocType e => e
  | Eof => []
  end.

(** A sink script that accepts every write. *)
Definition accepts (l : list outcome) : Prop := Forall (eq Accept) l.

Ltac split_writes :=
  repeat match goal with
         | |- context [write_all ?s ?v] =>
             let s' := fresh "s" in let r := fresh "r" in
             destruct (write_all s v) as [s' [r|]]
         end.

Example test_full_tag :
  buffer (writer (fst (write_events [Start (lit "tag"); Text (lit "inner text"); End (lit "tag")]
                                    (Writer_new (vec_sink [])))))
  = lit "<tag>inner text</tag>".
Proof. reflexivity. Qed.

Example test_nested :
  buffer (writer (fst (write_events
    [Start (lit "paired"); Start (lit "paired"); Empty (lit "inner"); End (lit "paired"); End (lit "paired")]
    (Writer_new_with_indent (vec_sink []) x20 4))))
  = lit "<paired>
    <paired>
        <inner/>
    </paired>
</paired>".
Proof. reflexivity. Qed.

Example test_mixed :
  buffer (writer (fst (write_events
    [Start (lit "paired"); Text (lit "text"); Empty (lit "inner"); End (lit "paired")]
    (Writer_new_with_indent (vec_sink []) x20 4))))
  = lit "<paired>text<inner/>
</paired>".
Proof. reflexivity. Qed.

Lemma write_event_async_shape (ev : Event) (w : Writer) :
  write_event_async ev w =
  let o := pre_indent ev (indent w) in
  let (s2, r) := sink_seq (event_chunks ev o) (writer w) in
  (mkWriter s2 (post_indent ev (early_return ev r) o), to_result r).
Proof.
  destruct w as [s o].
  destruct ev; destruct o as [i|]; try destruct (should_line_break i) eqn:Hb;
    cbv [write_event_async bind catch ret update_indent lift_result sink_write_all
         write_async write_wrapped_async get_indent sink_seq event_chunks line_break
         pre_indent post_indent option_map writer indent app early_return to_result next_flag fst snd Nat.ltb Nat.leb];
    cbv [should_line_break shrink] in *; rewrite ?Hb;
    split_writes; reflexivity.
Qed.

(** ** Lemmas on the sink *)

Lemma write_all_vec (b v : bytes) : write_all (vec_sink b) v = (vec_sink (b ++ v), None).
Proof. destruct v; cbn; rewrite ?app_nil_r; reflexivity. Qed.

Lemma write_all_ok (s s' : Sink) (v : bytes) :
  write_all s v = (s', None) ->
  buffer s' = buffer s ++ v /\ exists acc, script s = acc ++ script s' /\ accepts acc.
Proof.
  unfold write_all; destruct v as [|x v].
  - intros H; injection H as <-; rewrite app_nil_r; split; [reflexivity|].
    exists []; split; [reflexivity | constructor].
  - destruct s as [b sc]; cbn; destruct sc as [|[|k e] sc]; intros H; inversion H; subst;
      cbn; (split; [reflexivity|]).
    + exists []; split; [reflexivity | constructor].
    + exists [Accept]; split; [reflexivity | repeat constructor].
Qed.

Lemma write_all_err (s s' : Sink) (v : bytes) (e : io_error) :
  write_all s v = (s', Some e) ->
  (exists n, buffer s' = buffer s ++ firstn n v) /\ exists n, script s = Reject n e :: script s'.
Proof.
  unfold write_all; destruct v as [|x v]; [discriminate|].
  destruct s as [b sc]; cbn; destruct sc as [|[|k e'] sc]; try discriminate.
  intros H; injection H as <- <-; cbn; split; eauto.
Qed.

Lemma prefix_firstn (n : nat) (v : bytes) : prefix (firstn n v) v.
Proof. exists (skipn n v); symmetry; apply firstn_skipn. Qed.

Lemma prefix_app (p l1 l2 : bytes) : prefix p l2 -> prefix (l1 ++ p) (l1 ++ l2).
Proof. intros [q ->]; exists q; apply app_assoc. Qed.

Lemma prefix_app_r (p l1 l2 : bytes) : prefix p l1 -> prefix p (l1 ++ l2).
Proof. intros [q ->]; exists (q ++ l2); symmetry; apply app_assoc. Qed.

Lemma write_all_shift (b : bytes) (s : Sink) (v : bytes) :
  write_all (mkSink (b ++ buffer s) (script s)) v =
  (mkSink (b ++ buffer (fst (write_all s v))) (script (fst (write_all s v))), snd (write_all s v)).
Proof.
  destruct s as [b0 sc]; destruct v; [reflexivity|].
  cbn; destruct sc as [|[|k e] sc]; cbn; rewrite ?app_assoc; reflexivity.
Qed.

Lemma sink_seq_vec (l : list bytes) (b : bytes) :
  sink_seq l (vec_sink b) = (vec_sink (b ++ List.concat l), None).
Proof.
  revert b; induction l as [|v l IH]; intros b; cbn.
  - rewrite app_nil_r; reflexivity.
  - rewrite write_all_vec, IH, app_assoc; reflexivity.
Qed.

Lemma sink_seq_prefix (l : list bytes) (s : Sink) :
  exists p, buffer (fst (sink_seq l s)) = buffer s ++ p /\ prefix p (List.concat l).
Proof.
  revert s; induction l as [|v l IH]; intros s; cbn.
  - exists []; split; [symmetry; apply app_nil_r | exists []; reflexivity].
  - destruct (write_all s v) as [s1 [e|]] eqn:Hw.
    + apply write_all_err in Hw as [[n Hb] _]; cbn.
      exists (firstn n v); split; [exact Hb|].
      apply prefix_app_r, prefix_firstn.
    + apply write_all_ok in Hw as [Hb _].
      destruct (IH s1) as [p [Hp Hpre]].
      destruct (sink_seq l s1) as [s2 r2]; cbn in *.
      exists (v ++ p); split.
      * rewrite Hp, Hb, app_assoc; reflexivity.
      * apply prefix_app, Hpre.
Qed.

Lemma sink_seq_err (l : list bytes) (s s' : Sink) (k : nat) (e : io_error) :
  sink_seq l s = (s', Some (k, e)) ->
  exists acc n, script s = acc ++ Reject n e :: script s' /\ accepts acc.
Proof.
  revert s k; induction l as [|v l IH]; intros s k; cbn; [discriminate|].
  destruct (write_all s v) as [s1 [e'|]] eqn:Hw.
  - intros H; injection H as <- _ <-.
    apply write_all_err in Hw as [_ [n Hs]].
    exists [], n; split; [exact Hs | constructor].
  - destruct (sink_seq l s1) as [s2 [[k2 e2]|]] eqn:Hseq; cbn; [|discriminate].
    intros H; injection H as <- _ <-.
    destruct (IH s1 k2 Hseq) as (acc2 & n & Hs2 & Hacc2).
    apply write_all_ok in Hw as [_ (acc1 & Hs1 & Hacc1)].
    exists (acc1 ++ acc2), n; split.
    + rewrite Hs1, Hs2, app_assoc; reflexivity.
    + apply Forall_app; split; assumption.
Qed.

Lemma sink_seq_accepts (l : list bytes) (s : Sink) :
  accepts (script s) -> snd (sink_seq l s) = None /\ accepts (script (fst (sink_seq l s))).
Proof.
  revert s; induction l as [|v l IH]; intros s Hs; cbn; [split; auto|].
  destruct s as [b sc]; unfold write_all; destruct v as [|x v].
  - apply (IH (mkSink b sc)) in Hs; destruct (sink_seq l _); cbn in *; destruct Hs as [-> ?]; auto.
  - cbn in *; destruct sc as [|o sc].
    + specialize (IH (mkSink (b ++ x :: v) []) (Forall_nil _)).
      destruct (sink_seq l _); cbn in *; destruct IH as [-> ?]; auto.
    + inversion Hs as [|? ? Ho Hsc]; subst o.
      specialize (IH (mkSink (b ++ x :: v) sc) Hsc).
      destruct (sink_seq l _); cbn in *; destruct IH as [-> ?]; auto.
Qed.

Lemma sink_seq_shift (b : bytes) (l : list bytes) (s : Sink) :
  sink_seq l (mkSink (b ++ buffer s) (script s)) =
  (mkSink (b ++ buffer (fst (sink_seq l s))) (script (fst (sink_seq l s))), snd (sink_seq l s)).
Proof.
  revert s; induction l as [|v l IH]; intros s; cbn.
  - destruct s; reflexivity.
  - rewrite write_all_shift.
    destruct (write_all s v) as [s1 [e|]]; cbn; [reflexivity|].
    rewrite IH; destruct (sink_seq l s1); reflexivity.
Qed.

(** ** Lemmas on [write_event_async] *)

Lemma write_event_async_vec (ev : Event) (b : bytes) (o : option Indentation) :
  write_event_async ev (mkWriter (vec_sink b) o) =
  (mkWriter (vec_sink (b ++ List.concat (event_chunks ev (pre_indent ev o))))
            (post_indent ev false (pre_indent ev o)), Ok tt).
Proof.
  rewrite write_event_async_shape; cbn [writer indent].
  rewrite sink_seq_vec; destruct ev; reflexivity.
Qed.

Lemma line_break_concat (o : option Indentation) :
  List.concat (line_break o) = spec_line_break o.
Proof.
  destruct o as [i|]; [|reflexivity].
  cbn; destruct (should_line_break i); cbn; [rewrite app_nil_r|]; reflexivity.
Qed.

Lemma event_chunks_concat (ev : Event) (o : option Indentation) :
  List.concat (event_chunks ev o) =
  (if spec_indent_before ev then spec_line_break o else []) ++ spec_table_bytes ev.
Proof.
  destruct ev; cbn [event_chunks spec_indent_before spec_table_bytes];
    rewrite ?concat_app, ?line_break_concat; cbn [List.concat];
    rewrite ?app_nil_r; reflexivity.
Qed.

Lemma post_indent_ok (ev : Event) (o : option Indentation) :
  post_indent ev false o =
  option_map (set_should_line_break (spec_sets_line_break ev))
             (match ev with Start _ => option_map grow o | _ => o end).
Proof. destruct ev; reflexivity. Qed.

Lemma depth_post_indent (ev : Event) (early : bool) (o : option Indentation) :
  option_map depth (post_indent ev early o) =
  option_map depth (match ev with Start _ => option_map grow o | _ => o end).
Proof. destruct o as [i|], ev, early; reflexivity. Qed.

Lemma write_event_async_depth (ev : Event) (w : Writer) :
  option_map depth (indent (fst (write_event_async ev w))) =
  option_map (fun i => step_depth (depth i) ev) (indent w).
Proof.
  rewrite write_event_async_shape; cbv zeta.
  destruct (sink_seq (event_chunks ev (pre_indent ev (indent w))) (writer w)) as [s2 r];
    cbn [fst indent].
  rewrite depth_post_indent.
  destruct (indent w) as [i|], ev; reflexivity.
Qed.

Lemma write_events_depth (evs : list Event) (w : Writer) :
  option_map depth (indent (fst (write_events evs w))) =
  option_map (fun i => depth_after (depth i) evs) (indent w).
Proof.
  revert w; induction evs as [|ev evs IH]; intros w; cbn [write_events].
  - cbn; destruct (indent w); reflexivity.
  - pose proof (write_event_async_depth ev w) as Hd.
    destruct (write_event_async ev w) as [w1 r]; cbn [fst] in Hd.
    specialize (IH w1); destruct (write_events evs w1) as [w2 rs]; cbn [fst] in IH |- *.
    rewrite IH.
    destruct (indent w1) as [i1|], (indent w) as [i|]; cbn in Hd |- *; try discriminate.
    + injection Hd as Hd; rewrite Hd; reflexivity.
    + reflexivity.
Qed.

(** Under the nesting contract no [End] meets depth zero, so the depth is
    exactly the net nesting after every prefix. *)
Lemma nesting_depth_after (evs : list Event) (d : nat) (k : nat) :
  nesting_ok_from (Z.of_nat d) evs = true ->
  Z.of_nat (depth_after d (firstn k evs)) = (Z.of_nat d + balance (firstn k evs))%Z.
Proof.
  revert d k; induction evs as [|ev evs IH]; intros d k Hn.
  - destruct k; cbn; lia.
  - destruct k as [|k]; [cbn; lia|].
    cbn [firstn balance].
    change (depth_after d (ev :: firstn k evs)) with (depth_after (step_depth d ev) (firstn k evs)).
    destruct ev; cbn [nesting_ok_from depth_delta step_depth] in Hn |- *;
      try (rewrite (IH d k Hn); lia).
    + replace (Z.of_nat d + 1)%Z with (Z.of_nat (d + 1)) in Hn by lia.
      rewrite (IH (d + 1) k Hn); lia.
    + apply andb_prop in Hn as [Hlt Hn]; apply Z.ltb_lt in Hlt.
      replace (Z.of_nat d - 1)%Z with (Z.of_nat (d - 1)) in Hn by lia.
      rewrite (IH (d - 1) k Hn); lia.
Qed.

Lemma write_wrapped_async_seq (before value after : bytes) (w : Writer) :
  write_wrapped_async before value after w =
  let (s', r) := sink_seq (line_break (indent w) ++ [before; value; after]) (writer w) in
  (mkWriter s' (indent w), to_result r).
Proof.
  destruct w as [s o].
  destruct o as [i|]; try destruct (should_line_break i) eqn:Hb;
    cbv [write_wrapped_async bind ret sink_write_all write_async get_indent sink_seq
         line_break option_map writer indent app to_result fst snd];
    rewrite ?Hb; split_writes; reflexivity.
Qed.

Lemma write_event_async_shift (ev : Event) (b : bytes) (s : Sink) (o : option Indentation) :
  write_event_async ev (mkWriter (mkSink (b ++ buffer s) (script s)) o) =
  let (w', r) := write_event_async ev (mkWriter s o) in
  (mkWriter (mkSink (b ++ buffer (writer w')) (script (writer w'))) (indent w'), r).
Proof.
  rewrite !write_event_async_shape; cbv zeta; cbn [writer indent].
  rewrite sink_seq_shift.
  destruct (sink_seq (event_chunks ev (pre_indent ev o)) s); reflexivity.
Qed.

Lemma write_events_shift (evs : list Event) (b : bytes) (s : Sink) (o : option Indentation) :
  write_events evs (mkWriter (mkSink (b ++ buffer s) (script s)) o) =
  let (w', rs) := write_events evs (mkWriter s o) in
  (mkWriter (mkSink (b ++ buffer (writer w')) (script (writer w'))) (indent w'), rs).
Proof.
  revert s o; induction evs as [|ev evs IH]; intros s o; cbn [write_events].
  - reflexivity.
  - rewrite write_event_async_shift.
    destruct (write_event_async ev (mkWriter s o)) as [[s1 o1] r]; cbn [writer indent].
    rewrite IH; destruct (write_events evs (mkWriter s1 o1)); reflexivity.
Qed.

Lemma last_event_cons (ev : Event) (evs : list Event) : last_event (ev :: evs) <> None.
Proof.
  revert ev; induction evs as [|ev' evs IH]; intros ev; cbn; [discriminate|].
  apply IH.
Qed.

Lemma fold_flag_last (evs : list Event) (f : bool) :
  fold_left (fun _ ev => spec_sets_line_break ev) evs f =
  match last_event evs with None => f | Some ev => spec_sets_line_break ev end.
Proof.
  revert f; induction evs as [|ev evs IH]; intros f; cbn [fold_left]; [reflexivity|].
  rewrite IH; destruct evs as [|ev' evs']; [reflexivity|].
  change (last_event (ev :: ev' :: evs')) with (last_event (ev' :: evs')).
  destruct (last_event (ev' :: evs')) eqn:Hl; [reflexivity|].
  exfalso; exact (last_event_cons ev' evs' Hl).
Qed.

Lemma follows_markup_fold (evs : list Event) :
  follows_markup evs = fold_left (fun _ ev => spec_sets_line_break ev) evs false.
Proof.
  rewrite fold_flag_last; unfold follows_markup.
  destruct (last_event evs) as [[]|]; reflexivity.
Qed.

Lemma write_events_vec_pretty (evs : list Event) (b : bytes) (i : Indentation) :
  exists b',
    fst (write_events evs (mkWriter (vec_sink b) (Some i))) =
    mkWriter (vec_sink b')
      (Some (mkIndentation (fold_left (fun _ ev => spec_sets_line_break ev) evs (should_line_break i))
                           (indent_char i) (indent_size i) (depth_after (depth i) evs))).
Proof.
  revert b i; induction evs as [|ev evs IH]; intros b i; cbn [write_events].
  - exists b; destruct i; reflexivity.
  - rewrite write_event_async_vec, post_indent_ok.
    set (i1 := match ev with Start _ => option_map grow (pre_indent ev (Some i))
                              | _ => pre_indent ev (Some i) end).
    assert (Hi1 : i1 = Some (mkIndentation (should_line_break i) (indent_char i) (indent_size i)
                                           (step_depth (depth i) ev))).
    { subst i1; destruct i; destruct ev; reflexivity. }
    rewrite Hi1; cbn [option_map].
    destruct (IH (b ++ List.concat (event_chunks ev (pre_indent ev (Some i))))
                 (set_should_line_break (spec_sets_line_break ev)
                    (mkIndentation (should_line_break i) (indent_char i) (indent_size i)
                                   (step_depth (depth i) ev)))) as [b' Hb'].
    destruct (write_events evs _) as [w2 rs]; cbn in Hb' |- *.
    exists b'; rewrite Hb'; reflexivity.
Qed.

Lemma write_events_vec_compact (evs : list Event) (b : bytes) :
  fst (write_events evs (mkWriter (vec_sink b) None)) =
  mkWriter (vec_sink (b ++ List.concat (map spec_table_bytes evs))) None.
Proof.
  revert b; induction evs as [|ev evs IH]; intros b; cbn [write_events].
  - cbn; rewrite app_nil_r; reflexivity.
  - rewrite write_event_async_vec, event_chunks_concat.
    assert (Hp : pre_indent ev None = None) by (destruct ev; reflexivity).
    assert (Hq : post_indent ev false None = None) by (destruct ev; reflexivity).
    rewrite Hp, Hq.
    specialize (IH (b ++ (if spec_indent_before ev then spec_line_break None else []) ++
                          spec_table_bytes ev)).
    destruct (write_events evs _) as [w2 rs]; cbn in IH |- *; rewrite IH.
    destruct (spec_indent_before ev); cbn; rewrite app_assoc; reflexivity.
Qed.

Lemma write_event_async_compact (ev : Event) (s : Sink) :
  indent (fst (write_event_async ev (mkWriter s None))) = None /\
  exists p, buffer (writer (fst (write_event_async ev (mkWriter s None)))) = buffer s ++ p
            /\ prefix p (spec_table_bytes ev).
Proof.
  rewrite write_event_async_shape; cbv zeta; cbn [writer indent].
  assert (Hp : pre_indent ev None = None) by (destruct ev; reflexivity).
  rewrite Hp.
  destruct (sink_seq_prefix (event_chunks ev None) s) as [p [Hb Hpre]].
  destruct (sink_seq (event_chunks ev None) s) as [s2 r]; cbn in Hb |- *.
  split; [destruct ev, (early_return _ r); reflexivity|].
  exists p; split; [exact Hb|].
  rewrite event_chunks_concat in Hpre; destruct (spec_indent_before ev); exact Hpre.
Qed.

Lemma not_in_prefix (x : byte) (p l : bytes) : prefix p l -> ~ In x l -> ~ In x p.
Proof. intros [q ->] H Hp; apply H, in_or_app; left; exact Hp. Qed.

Lemma table_bytes_no_newline (ev : Event) :
  ~ In newline (payload ev) -> ~ In newline (spec_table_bytes ev).
Proof.
  destruct ev; cbn [payload spec_table_bytes]; intros Hn H;
    repeat (apply in_app_or in H; destruct H as [H|H]);
    try (apply Hn; exact H); cbn in H; intuition discriminate.
Qed.

Lemma write_events_blocking (evs : list Event) (b : bytes) (o : option Indentation) :
  fst (write_events evs (mkWriter (vec_sink b) o)) =
  let bw := blocking_write_events evs (mkBlocking b o) in mkWriter (vec_sink (out bw)) (tracker bw).
Proof.
  revert b o; induction evs as [|ev evs IH]; intros b o; cbn [write_events]; [reflexivity|].
  rewrite write_event_async_vec, event_chunks_concat, post_indent_ok.
  specialize (IH (b ++ (if spec_indent_before ev then spec_line_break (pre_indent ev o) else [])
                    ++ spec_table_bytes ev)
                 (option_map (set_should_line_break (spec_sets_line_break ev))
                    (match ev with Start _ => option_map grow (pre_indent ev o)
                              | _ => pre_indent ev o end))).
  destruct (write_events evs _) as [w2 rs]; cbn in IH |- *; rewrite IH.
  destruct ev; reflexivity.
Qed.

(** ** The claims *)

(** C1: writing one event into a [Vec<u8>] sink appends exactly the bytes of
    the dispatch table of §4.1 ([Eof] none), preceded by a newline and the
    indentation only for the variants marked "yes" and only when a tracker is
    present with its [should_line_break] flag set; the indentation is that of
    the tracker as it stands when the bytes are written (already decremented
    for [End]).  The call succeeds. *)
Theorem write_event_async_dispatch (b : bytes) (o : option Indentation) (ev : Event) :
  let (w', r) := write_event_async ev (mkWriter (vec_sink b) o) in
  r = Ok tt /\
  buffer (writer w') =
  b ++ (if spec_indent_before ev
        then spec_line_break (match ev with End _ => option_map shrink o | _ => o end)
        else [])
    ++ spec_table_bytes ev.
Proof.
  rewrite write_event_async_vec; split; [reflexivity|].
  cbn [writer buffer vec_sink]; rewrite event_chunks_concat; destruct ev; reflexivity.
Qed.

(** C2: for every event sequence and every indentation configuration, the
    asynchronous writer and the blocking writer, both writing into a
    [Vec<u8>], produce the same bytes. *)
Theorem blocking_async_identical (cfg : config) (evs : list Event) (b : bytes) :
  buffer (writer (fst (write_events evs (writer_of_config cfg (vec_sink b))))) =
  out (blocking_write_events evs (blocking_of_config cfg b)).
Proof.
  destruct cfg as [[c n]|];
    unfold writer_of_config, Writer_new, Writer_new_with_indent, blocking_of_config;
    rewrite write_events_blocking; reflexivity.
Qed.

(** C3 (the code misses the post-condition): in pretty mode, after a [Start]
    (which leaves [should_line_break] true), a [CData] whose first sink write
    fails returns the error through the [?] of its arm, before the flag is
    updated: the flag stays true instead of becoming false. *)
Theorem cdata_error_skips_flag_update :
  let w0 := Writer_new_with_indent (mkSink [] [Accept; Accept; Accept; Reject 0 (IoError 5)]) x20 4 in
  let (w1, r1) := write_event_async (Start (lit "a")) w0 in
  let (w2, r2) := write_event_async (CData (lit "x")) w1 in
  r1 = Ok tt /\ option_map should_line_break (indent w1) = Some true /\
  r2 = Err (Io (IoError 5)) /\ option_map should_line_break (indent w2) = Some true.
Proof. cbv; repeat split. Qed.

(** C4: for a sequence that respects the nesting contract, fed to a fresh
    pretty writer, the depth after every prefix is exactly the number of
    [Start]s minus the number of [End]s in it, so it never goes below zero
    and no [End] ever meets depth zero; whatever the sink does, a [Start]
    adds one to the depth, an [End] at a positive depth removes one, and no
    other event changes it; the [Start]'s bytes are indented at the old
    depth (the increment comes after) and the [End]'s at the decremented one
    (the decrement comes before). *)
Theorem depth_tracking (s : Sink) (c : byte) (n : nat) (evs : list Event)
  (Hnest : nesting_ok evs = true) :
  (forall k, exists i,
      indent (fst (write_events (firstn k evs) (Writer_new_with_indent s c n))) = Some i
      /\ Z.of_nat (depth i) = balance (firstn k evs)) /\
  (forall ev w i, indent w = Some i -> (forall e, ev = End e -> 0 < depth i) ->
      option_map (fun i' => Z.of_nat (depth i')) (indent (fst (write_event_async ev w))) =
      Some (Z.of_nat (depth i) + depth_delta ev)%Z) /\
  (forall e b i, should_line_break i = true ->
      buffer (writer (fst (write_event_async (Start e) (mkWriter (vec_sink b) (Some i))))) =
        b ++ newline :: current i ++ lit "<" ++ e ++ lit ">" /\
      buffer (writer (fst (write_event_async (End e) (mkWriter (vec_sink b) (Some i))))) =
        b ++ newline :: current (shrink i) ++ lit "</" ++ e ++ lit ">").
Proof.
  split; [|split].
  - intros k.
    pose proof (write_events_depth (firstn k evs) (Writer_new_with_indent s c n)) as Hd.
    destruct (indent (fst (write_events (firstn k evs) (Writer_new_with_indent s c n)))) as [i|];
      cbn in Hd; [|discriminate].
    injection Hd as Hd; exists i; split; [reflexivity|].
    rewrite Hd; exact (nesting_depth_after evs 0 k Hnest).
  - intros ev w i Hi Hpos.
    pose proof (write_event_async_depth ev w) as Hd; rewrite Hi in Hd.
    destruct (indent (fst (write_event_async ev w))) as [i'|]; cbn in Hd; [|discriminate].
    injection Hd as Hd; cbn; f_equal; rewrite Hd.
    destruct ev; cbn [step_depth depth_delta]; try lia.
    specialize (Hpos e eq_refl); lia.
  - intros e b i Hb; split;
      rewrite write_event_async_vec; cbn [writer buffer vec_sink];
      rewrite event_chunks_concat; cbn -[lit current]; rewrite Hb; reflexivity.
Qed.

(** C5, as the code behaves: in pretty mode with a [Vec<u8>] sink, after any
    sequence [evs] that respects the nesting contract, the next event [ev] is
    preceded by a newline and the indentation exactly when [ev] is one of the
    indented variants (not [Text], [CData] or [Eof]) and [evs] is non-empty
    and does not end with [Text] or [CData]; the indentation is [depth]
    levels, [depth] being the net nesting of [evs], one less for an [End]. *)
Theorem pretty_line_breaks (b : bytes) (c : byte) (n : nat) (evs : list Event) (ev : Event)
  (Hnest : nesting_ok evs = true) :
  let w := fst (write_events evs (Writer_new_with_indent (vec_sink b) c n)) in
  buffer (writer (fst (write_event_async ev w))) =
  buffer (writer w) ++
  (if spec_indent_before ev && follows_markup evs
   then newline :: List.concat (repeat (repeat c n)
                    (Z.to_nat (balance evs + match ev with End _ => -1 | _ => 0 end)))
   else []) ++ spec_table_bytes ev.
Proof.
  cbv zeta; unfold Writer_new_with_indent.
  destruct (write_events_vec_pretty evs b (Indentation_new c n)) as [b' Hw].
  rewrite Hw, write_event_async_vec, follows_markup_fold.
  cbn [writer buffer vec_sink]; rewrite event_chunks_concat.
  cbn [Indentation_new should_line_break indent_char indent_size depth].
  pose proof (nesting_depth_after evs 0 (List.length evs) Hnest) as Hd.
  rewrite firstn_all in Hd; cbn [Z.of_nat Z.add] in Hd.
  assert (H0 : Z.to_nat (balance evs + 0) = depth_after 0 evs) by lia.
  assert (H1 : Z.to_nat (balance evs + -1) = depth_after 0 evs - 1) by lia.
  destruct (fold_left _ evs false), ev; cbv beta iota; rewrite ?H0, ?H1; reflexivity.
Qed.

(** C5, refuted as stated: writing [Start "a"] then [Text "t"] in pretty mode
    emits no line break before the [Text] event, although it does not follow
    a [Text] or [CData] event. *)
Lemma pretty_no_break_before_text :
  buffer (writer (fst (write_events [Start (lit "a"); Text (lit "t")]
                                    (Writer_new_with_indent (vec_sink []) x20 4)))) = lit "<a>t"
  /\ ~ In newline (lit "<a>t").
Proof. split; [reflexivity|]. cbn; intuition discriminate. Qed.

(** C6, as the code behaves: a compact writer adds no newline of its own.
    Whatever the sink does, if neither the sink's earlier contents nor any
    event payload contain a newline, neither does the output; with a
    [Vec<u8>] sink the output is exactly the events' delimited bytes. *)
Theorem compact_adds_no_newline (s : Sink) (evs : list Event)
  (Hbuf : ~ In newline (buffer s))
  (Hpay : Forall (fun ev => ~ In newline (payload ev)) evs) :
  ~ In newline (buffer (writer (fst (write_events evs (Writer_new s))))) /\
  (forall b, buffer (writer (fst (write_events evs (Writer_new (vec_sink b))))) =
             b ++ List.concat (map spec_table_bytes evs)).
Proof.
  split.
  - unfold Writer_new; revert s Hbuf; induction Hpay as [|ev evs Hev Hpay IH]; intros s Hbuf;
      cbn [write_events]; [exact Hbuf|].
    destruct (write_event_async_compact ev s) as [Hi [p [Hb Hpre]]].
    destruct (write_event_async ev (mkWriter s None)) as [[s1 o1] r]; cbn in Hi, Hb; subst o1.
    specialize (IH s1).
    destruct (write_events evs (mkWriter s1 None)) as [w2 rs]; cbn in IH |- *.
    apply IH; rewrite Hb; intros Hin; apply in_app_or in Hin as [Hin|Hin];
      [exact (Hbuf Hin)|].
    exact (not_in_prefix _ _ _ Hpre (table_bytes_no_newline ev Hev) Hin).
  - intros b; unfold Writer_new; rewrite write_events_vec_compact; reflexivity.
Qed.

(** C6, refuted as stated: a compact writer fed a [Text] event whose payload
    is a newline emits a newline byte. *)
Lemma compact_text_newline :
  In newline (buffer (writer (fst (write_events [Text [newline]] (Writer_new (vec_sink [])))))).
Proof. cbn; left; reflexivity. Qed.

(** C7: when [write_event_async] fails, the error is the sink's own I/O
    error, from the first write the sink rejected, after which the sink is
    not written again (its remaining script is untouched); the bytes written
    before the failure stay in the sink and are a prefix of the event's full
    bytes; and the writer is not poisoned: once the sink accepts writes
    again, every further call succeeds. *)
Theorem write_event_async_error (w w' : Writer) (ev : Event) (err : Error)
  (Herr : write_event_async ev w = (w', Err err)) :
  (exists acc n e, err = Io e /\
     script (writer w) = acc ++ Reject n e :: script (writer w') /\ accepts acc) /\
  (exists p, buffer (writer w') = buffer (writer w) ++ p /\
     prefix p ((if spec_indent_before ev
                then spec_line_break (match ev with End _ => option_map shrink (indent w)
                                               | _ => indent w end)
                else []) ++ spec_table_bytes ev)) /\
  (accepts (script (writer w')) -> forall ev', snd (write_event_async ev' w') = Ok tt).
Proof.
  split; [|split].
  - rewrite write_event_async_shape in Herr; cbv zeta in Herr.
    destruct (sink_seq (event_chunks ev (pre_indent ev (indent w))) (writer w))
      as [s2 [[k e]|]] eqn:Hs; cbn in Herr; injection Herr as <- He; [|discriminate].
    destruct (sink_seq_err _ _ _ _ _ Hs) as (acc & n & Hsc & Hacc).
    exists acc, n, e; cbn; split; [congruence|]; split; assumption.
  - rewrite write_event_async_shape in Herr; cbv zeta in Herr.
    destruct (sink_seq_prefix (event_chunks ev (pre_indent ev (indent w))) (writer w)) as [p [Hb Hpre]].
    destruct (sink_seq (event_chunks ev (pre_indent ev (indent w))) (writer w)) as [s2 r];
      injection Herr as <- _; cbn in Hb |- *.
    exists p; split; [exact Hb|].
    rewrite event_chunks_concat in Hpre; destruct ev; exact Hpre.
  - intros Hacc ev'; rewrite write_event_async_shape; cbv zeta.
    destruct (sink_seq_accepts (event_chunks ev' (pre_indent ev' (indent w'))) (writer w') Hacc)
      as [Hr _].
    destruct (sink_seq _ _) as [s2 r]; cbn in Hr |- *; subst r; reflexivity.
Qed.

(** C8: [write_wrapped_async] into a [Vec<u8>] writes, before [before], one
    newline followed by the unit ([indent_size] copies of [indent_char])
    repeated [depth] times when a tracker is present with its flag set, and
    nothing otherwise; then [before], [value] and [after]. *)
Theorem write_wrapped_async_line_break (b before value after : bytes) (o : option Indentation) :
  write_wrapped_async before value after (mkWriter (vec_sink b) o) =
  (mkWriter (vec_sink (b ++ (match o with
                             | Some i =>
                                 if should_line_break i
                                 then newline :: List.concat
                                        (repeat (repeat (indent_char i) (indent_size i))
                                                (depth i))
                                 else []
                             | None => []
                             end) ++ before ++ value ++ after)) o, Ok tt).
Proof.
  rewrite write_wrapped_async_seq; cbn [writer indent].
  rewrite sink_seq_vec, concat_app, line_break_concat.
  cbn [List.concat]; rewrite app_nil_r.
  destruct o as [i|]; reflexivity.
Qed.

(** C9: the bytes a writer emits depend only on its configuration, the
    events and the sink's behaviour: two writers with the same configuration,
    over sinks that behave alike, fed the same events, append the same bytes
    to whatever their sinks held before. *)
Theorem output_pure_function (cfg : config) (sc : list outcome) (b1 b2 : bytes) (evs : list Event) :
  exists emitted,
    buffer (writer (fst (write_events evs (writer_of_config cfg (mkSink b1 sc))))) = b1 ++ emitted /\
    buffer (writer (fst (write_events evs (writer_of_config cfg (mkSink b2 sc))))) = b2 ++ emitted.
Proof.
  set (o := indent (writer_of_config cfg (mkSink [] sc))).
  assert (Hw : forall b, writer_of_config cfg (mkSink b sc) =
                         mkWriter (mkSink (b ++ buffer (mkSink [] sc)) (script (mkSink [] sc))) o).
  { intros b; subst o; destruct cfg as [[c n]|]; cbn; rewrite app_nil_r; reflexivity. }
  exists (buffer (writer (fst (write_events evs (mkWriter (mkSink [] sc) o))))).
  rewrite !Hw, !write_events_shift.
  destruct (write_events evs (mkWriter (mkSink [] sc) o)); split; reflexivity.
Qed.

(** C10: the depth changes are not rolled back when the sink fails: after a
    [Start] the tracker is grown and after an [End] it is shrunk whatever
    the sink did, and the bytes an [End] writes, even a truncated part, are
    indented at the already decremented depth. *)
Theorem depth_not_rolled_back (w : Writer) (i : Indentation) (e : bytes)
  (Hi : indent w = Some i) :
  indent (fst (write_event_async (Start e) w)) = Some (set_should_line_break true (grow i)) /\
  indent (fst (write_event_async (End e) w)) = Some (set_should_line_break true (shrink i)) /\
  exists p, buffer (writer (fst (write_event_async (End e) w))) = buffer (writer w) ++ p /\
            prefix p (spec_line_break (Some (shrink i)) ++ lit "</" ++ e ++ lit ">").
Proof.
  split; [|split].
  - rewrite write_event_async_shape; cbv zeta; rewrite Hi.
    destruct (sink_seq _ _); reflexivity.
  - rewrite write_event_async_shape; cbv zeta; rewrite Hi.
    destruct (sink_seq _ _); reflexivity.
  - rewrite write_event_async_shape; cbv zeta; rewrite Hi.
    destruct (sink_seq_prefix (event_chunks (End e) (pre_indent (End e) (Some i))) (writer w))
      as [p [Hb Hpre]].
    destruct (sink_seq _ _) as [s2 r]; cbn in Hb |- *.
    exists p; split; [exact Hb|].
    rewrite event_chunks_concat in Hpre; exact Hpre.
Qed.

(** ** Witnesses: the hypotheses of the theorems above hold at concrete inputs *)

Lemma depth_tracking_witness :
  nesting_ok [Start (lit "a"); Empty (lit "b"); End (lit "a")] = true /\
  (forall k, exists i,
      indent (fst (write_events (firstn k [Start (lit "a"); Empty (lit "b"); End (lit "a")])
                                (Writer_new_with_indent (vec_sink []) x20 4))) = Some i
      /\ Z.of_nat (depth i) = balance (firstn k [Start (lit "a"); Empty (lit "b"); End (lit "a")])).
Proof.
  split; [reflexivity|].
  apply (depth_tracking (vec_sink []) x20 4 [Start (lit "a"); Empty (lit "b"); End (lit "a")]).
  reflexivity.
Defined.

Lemma compact_adds_no_newline_witness :
  ~ In newline (buffer (vec_sink [])) /\
  Forall (fun ev => ~ In newline (payload ev)) [Start (lit "a"); Text (lit "t"); End (lit "a")] /\
  ~ In newline (buffer (writer (fst (write_events [Start (lit "a"); Text (lit "t"); End (lit "a")]
                                                  (Writer_new (vec_sink [])))))).
Proof.
  assert (H1 : ~ In newline (buffer (vec_sink []))) by (cbn; tauto).
  assert (H2 : Forall (fun ev => ~ In newline (payload ev))
                      [Start (lit "a"); Text (lit "t"); End (lit "a")])
    by (repeat constructor; cbn; intuition discriminate).
  split; [exact H1|]; split; [exact H2|].
  exact (proj1 (compact_adds_no_newline (vec_sink []) _ H1 H2)).
Defined.

Lemma write_event_async_error_witness :
  write_event_async (Start (lit "tag")) (mkWriter (mkSink [] [Accept; Reject 1 (IoError 7)]) None)
  = (mkWriter (mkSink (lit "<t") []) None, Err (Io (IoError 7))) /\
  exists acc n e, Io (IoError 7) = Io e /\
    script (writer (mkWriter (mkSink [] [Accept; Reject 1 (IoError 7)]) None)) =
    acc ++ Reject n e :: script (writer (mkWriter (mkSink (lit "<t") []) None)) /\ accepts acc.
Proof.
  assert (H : write_event_async (Start (lit "tag"))
                (mkWriter (mkSink [] [Accept; Reject 1 (IoError 7)]) None)
              = (mkWriter (mkSink (lit "<t") []) None, Err (Io (IoError 7)))) by reflexivity.
  split; [exact H|].
  exact (proj1 (write_event_async_error _ _ _ _ H)).
Defined.

Lemma pretty_line_breaks_witness :
  nesting_ok [Start (lit "a"); Empty (lit "b")] = true /\
  buffer (writer (fst (write_event_async (End (lit "a"))
    (fst (write_events [Start (lit "a"); Empty (lit "b")] (Writer_new_with_indent (vec_sink []) x20 2)))))) =
  buffer (writer (fst (write_events [Start (lit "a"); Empty (lit "b")]
                                    (Writer_new_with_indent (vec_sink []) x20 2)))) ++
  (if spec_indent_before (End (lit "a")) && follows_markup [Start (lit "a"); Empty (lit "b")]
   then newline :: List.concat (repeat (repeat x20 2)
                    (Z.to_nat (balance [Start (lit "a"); Empty (lit "b")] + -1)))
   else []) ++ spec_table_bytes (End (lit "a")).
Proof.
  assert (H : nesting_ok [Start (lit "a"); Empty (lit "b")] = true) by reflexivity.
  split; [exact H|].
  exact (pretty_line_breaks [] x20 2 [Start (lit "a"); Empty (lit "b")] (End (lit "a")) H).
Defined.

Lemma depth_not_rolled_back_witness :
  indent (mkWriter (mkSink [] [Reject 0 (IoError 3)]) (Some (mkIndentation true x20 4 1)))
    = Some (mkIndentation true x20 4 1) /\
  indent (fst (write_event_async (Start (lit "a"))
                 (mkWriter (mkSink [] [Reject 0 (IoError 3)]) (Some (mkIndentation true x20 4 1)))))
    = Some (set_should_line_break true (grow (mkIndentation true x20 4 1))).
Proof.
  assert (H : indent (mkWriter (mkSink [] [Reject 0 (IoError 3)]) (Some (mkIndentation true x20 4 1)))
              = Some (mkIndentation true x20 4 1)) by reflexivity.
  split; [exact H|].
  exact (proj1 (depth_not_rolled_back _ _ (lit "a") H)).
Defined.

(** ** Further properties of the code *)

Lemma write_indent_async_seq (w : Writer) :
  write_indent_async w =
  let (s', r) := sink_seq (match indent w with Some i => [[newline]; current i] | None => [] end)
                          (writer w) in
  (mkWriter s' (indent w), to_result r).
Proof.
  destruct w as [s [i|]];
    cbv [write_indent_async bind ret sink_write_all get_indent sink_seq option_map
         writer indent to_result fst snd];
    split_writes; reflexivity.
Qed.

Lemma sink_seq_ok (l : list bytes) (s s' : Sink) :
  sink_seq l s = (s', None) -> buffer s' = buffer s ++ List.concat l.
Proof.
  revert s; induction l as [|v l IH]; intros s; cbn.
  - intros H; injection H as <-; rewrite app_nil_r; reflexivity.
  - destruct (write_all s v) as [s1 [e|]] eqn:Hw; [discriminate|].
    destruct (sink_seq l s1) as [s2 [p|]] eqn:Hs; cbn; [discriminate|].
    intros H; injection H as <-.
    apply write_all_ok in Hw as [Hb _].
    rewrite (IH s1 Hs), Hb, app_assoc; reflexivity.
Qed.

Lemma write_events_vec_cons (ev : Event) (evs : list Event) (b : bytes) (o : option Indentation) :
  fst (write_events (ev :: evs) (mkWriter (vec_sink b) o)) =
  fst (write_events evs (mkWriter (vec_sink (b ++ List.concat (event_chunks ev (pre_indent ev o))))
                                  (post_indent ev false (pre_indent ev o)))).
Proof.
  cbn [write_events]; rewrite write_event_async_vec.
  destruct (write_events evs _); reflexivity.
Qed.

Ltac run_vec_events :=
  unfold Writer_new_with_indent, Indentation_new;
  repeat rewrite write_events_vec_cons;
  cbn; try change (Pos.to_nat 1) with 1%nat; try change (Pos.to_nat 2) with 2%nat;
  cbn; repeat (rewrite <- app_assoc; cbn); rewrite ?app_nil_r; reflexivity.

(** [write_indent_async] into a [Vec<u8>]: in compact mode it writes nothing;
    in pretty mode it writes a newline and the current indentation.  In both
    cases the tracker, its [should_line_break] flag included, is unchanged. *)
Theorem write_indent_async_vec (b : bytes) (o : option Indentation) :
  write_indent_async (mkWriter (vec_sink b) o) =
  (mkWriter (vec_sink (b ++ match o with Some i => newline :: current i | None => [] end)) o, Ok tt).
Proof.
  rewrite write_indent_async_seq; cbn [writer indent]; rewrite sink_seq_vec.
  destruct o as [i|]; cbn; rewrite ?app_nil_r; reflexivity.
Qed.

(** [write_indent_async] with any sink: the tracker is never changed, the
    bytes written are a prefix of a newline and the current indentation, and
    without a tracker the sink is not touched at all and the call succeeds. *)
Theorem write_indent_async_any_sink (w : Writer) :
  let (w', r) := write_indent_async w in
  indent w' = indent w /\
  (exists p, buffer (writer w') = buffer (writer w) ++ p /\
             prefix p (match indent w with Some i => newline :: current i | None => [] end)) /\
  (indent w = None -> w' = w /\ r = Ok tt).
Proof.
  rewrite write_indent_async_seq.
  destruct (sink_seq_prefix (match indent w with Some i => [[newline]; current i] | None => [] end)
                            (writer w)) as [p [Hb Hpre]].
  destruct w as [s o]; cbn [writer indent] in Hb, Hpre |- *.
  destruct (sink_seq (match o with Some i => [[newline]; current i] | None => [] end) s)
    as [s2 r] eqn:Hs; cbn in Hb, Hpre |- *.
  split; [reflexivity|]; split.
  - exists p; split; [exact Hb|].
    destruct o as [i|]; cbn in Hpre; rewrite ?app_nil_r in Hpre; exact Hpre.
  - intros ->; cbn in Hs; injection Hs as <- <-; split; reflexivity.
Qed.

(** The [should_line_break] post-condition as the code keeps it: whenever the
    call succeeds, or the event is not [CData], the flag is false after
    [Text] and [CData] and true after every other event, whatever the sink
    did. *)
Theorem write_event_async_flag (ev : Event) (w : Writer) (i : Indentation)
  (Hi : indent w = Some i)
  (Hok : snd (write_event_async ev w) = Ok tt \/ forall e, ev <> CData e) :
  option_map should_line_break (indent (fst (write_event_async ev w))) =
  Some (spec_sets_line_break ev).
Proof.
  rewrite write_event_async_shape in Hok |- *; cbv zeta in Hok |- *; rewrite Hi in Hok |- *.
  destruct (sink_seq (event_chunks ev (pre_indent ev (Some i))) (writer w)) as [s2 r].
  cbn [fst snd] in Hok |- *.
  destruct ev; try reflexivity.
  destruct Hok as [Hok|Hok]; [|exfalso; exact (Hok e eq_refl)].
  destruct r as [[k e']|]; [discriminate|reflexivity].
Qed.

(** [write_wrapped_async] with any sink never changes the tracker; the bytes
    it writes are a prefix of the optional line break, [before], [value] and
    [after], and all of them when it succeeds. *)
Theorem write_wrapped_async_any_sink (before value after : bytes) (w : Writer) :
  let (w', r) := write_wrapped_async before value after w in
  indent w' = indent w /\
  exists p, buffer (writer w') = buffer (writer w) ++ p /\
    prefix p (spec_line_break (indent w) ++ before ++ value ++ after) /\
    (r = Ok tt -> p = spec_line_break (indent w) ++ before ++ value ++ after).
Proof.
  rewrite write_wrapped_async_seq.
  pose proof (sink_seq_ok (line_break (indent w) ++ [before; value; after]) (writer w)) as Hok.
  destruct (sink_seq_prefix (line_break (indent w) ++ [before; value; after]) (writer w))
    as [p [Hb Hpre]].
  assert (Hc : List.concat (line_break (indent w) ++ [before; value; after]) =
               spec_line_break (indent w) ++ before ++ value ++ after).
  { rewrite concat_app, line_break_concat; cbn [List.concat]; rewrite app_nil_r; reflexivity. }
  rewrite Hc in Hok, Hpre.
  destruct (sink_seq (line_break (indent w) ++ [before; value; after]) (writer w)) as [s2 r].
  cbn in Hb |- *; split; [reflexivity|].
  exists p; split; [exact Hb|]; split; [exact Hpre|].
  intros Hr; destruct r as [[k e]|]; [discriminate|].
  specialize (Hok s2 eq_refl); rewrite Hb in Hok; exact (app_inv_head _ _ _ Hok).
Qed.


(** Test [paired_with_text], for any start tag [a] (name and attributes),
    end tag [z], text and indentation: an element holding only text is
    written on one line. *)
Theorem pretty_paired_with_text (b a t z : bytes) (c : byte) (n : nat) :
  buffer (writer (fst (write_events [Start a; Text t; End z]
                                    (Writer_new_with_indent (vec_sink b) c n)))) =
  b ++ lit "<" ++ a ++ lit ">" ++ t ++ lit "</" ++ z ++ lit ">".
Proof. run_vec_events. Qed.

(** Test [mixed_content], for any start tag [a], end tag [z], text, inner
    tag and indentation: markup right after text stays on its line, and the
    closing tag goes on a new line. *)
Theorem pretty_mixed_content (b a t m z : bytes) (c : byte) (n : nat) :
  buffer (writer (fst (write_events [Start a; Text t; Empty m; End z]
                                    (Writer_new_with_indent (vec_sink b) c n)))) =
  b ++ lit "<" ++ a ++ lit ">" ++ t ++ lit "<" ++ m ++ lit "/>" ++
       newline :: lit "</" ++ z ++ lit ">".
Proof. run_vec_events. Qed.

(** Test [nested], for any start tags [a1], [a2], end tags [z2], [z1],
    inner tag and indentation unit [u] ([n] copies of [c]): each line is
    indented by its nesting depth. *)
Theorem pretty_nested (b a1 a2 m z2 z1 : bytes) (c : byte) (n : nat) :
  let u := repeat c n in
  buffer (writer (fst (write_events [Start a1; Start a2; Empty m; End z2; End z1]
                                    (Writer_new_with_indent (vec_sink b) c n)))) =
  b ++ lit "<" ++ a1 ++ lit ">" ++
       newline :: u ++ lit "<" ++ a2 ++ lit ">" ++
       newline :: u ++ u ++ lit "<" ++ m ++ lit "/>" ++
       newline :: u ++ lit "</" ++ z2 ++ lit ">" ++
       newline :: lit "</" ++ z1 ++ lit ">".
Proof. cbv zeta; run_vec_events. Qed.

Lemma write_event_async_flag_witness :
  indent (mkWriter (mkSink [] [Reject 0 (IoError 2)]) (Some (mkIndentation false x20 2 1)))
    = Some (mkIndentation false x20 2 1) /\
  option_map should_line_break
    (indent (fst (write_event_async (Start (lit "a"))
                    (mkWriter (mkSink [] [Reject 0 (IoError 2)]) (Some (mkIndentation false x20 2 1))))))
  = Some (spec_sets_line_break (Start (lit "a"))).
Proof.
  assert (H : indent (mkWriter (mkSink [] [Reject 0 (IoError 2)]) (Some (mkIndentation false x20 2 1)))
              = Some (mkIndentation false x20 2 1)) by reflexivity.
  split; [exact H|].
  apply (write_event_async_flag _ _ _ H).
  right; intros e He; discriminate.
Defined.

